(* Shallow embedding of the rule-driven state machine (statemachine.js),
   its Tokenizer specialisation and action vocabulary (tokenizer.js), and
   the string stream of util.js (streamify). *)

From Stdlib Require Import String ZArith List Lia.
From stdpp Require Import base gmap strings pretty.
Import ListNotations.
Open Scope string_scope.

(* ------------------------------------------------------------------ *)
(** * Data model *)

(** A JS value that is either a string or [undefined]. *)
Abbreviation jsval := (option string).

(** String conversion as in a template literal: [undefined] prints as
    "undefined". *)
Definition js_str (v : jsval) : string :=
  match v with Some s => s | None => "undefined" end.

(** Property key used by [this.states[key]]: a JS object coerces the key
    [undefined] to the string "undefined". *)
Definition js_key (v : jsval) : string := js_str v.

(** Strict equality [===] on strings and [undefined]. *)
Definition js_eqb (a b : jsval) : bool :=
  match a, b with
  | Some x, Some y => String.eqb x y
  | None, None => true
  | _, _ => false
  end.

(** Output tokens of the Tokenizer: [{type, value}] with the buffer as value. *)
Record Token := mkToken { tok_type : string; tok_value : string }.

(** The Context object of one run.  The generic fields are those of
    [class Context]; [buffer], [charstack] and [callstack] are the fields the
    Tokenizer's initializer and actions add.  [charstack] and [callstack] are
    [None] while the property does not exist yet ([!ctx.charstack]). *)
Record Context := mkContext {
  state : jsval;
  currentItem : jsval;
  currentPosition : Z;
  tokens : list Token;
  finished : bool;
  buffer : string;
  charstack : option (list jsval);
  callstack : option (list jsval)
}.

(** Errors thrown by the code: the message of the [Error] (or [TypeError]). *)
Inductive result (A : Type) :=
| Ok : A -> result A
| Err : string -> result A.
Arguments Ok {A} _.
Arguments Err {A} _.

Definition bind {A B} (r : result A) (f : A -> result B) : result B :=
  match r with Ok a => f a | Err e => Err e end.
Notation "'let!' x ':=' r 'in' k" := (bind r (fun x => k))
  (at level 200, x name, r at level 100, k at level 200).

(** Actions (tokenizer.js ACTIONS).  [state] is [module.exports.state],
    [ret] is [module.exports.ret], [error] is [module.exports.error]. *)
Inductive Action :=
| accept
| emit (type : string)
| state_ (name : string)
| call (name : string)
| ret
| error (msg : string)
| push.

(** Matchers after the Tokenizer's matcher wrapper: a literal compared with
    [===], a RegExp (abstracted as a predicate on the item, applied through
    [ctx.currentItem.match(m)]), or the [pop()] matcher function. *)
Inductive Matcher :=
| lit (m : string)
| regex (p : string -> bool)
| pop.

Record Rule := mkRule { matcher : Matcher; actions : list Action }.

(** A state object [{name, matchers, defaultActions, endActions}]. *)
Record StateObj := mkStateObj {
  so_name : string;
  matchers : list Rule;
  defaultActions : list Action;
  endActions : list Action
}.

(* ------------------------------------------------------------------ *)
(** * Context operations *)

(** [Context.changeState]: [this.state = state]. *)
Definition changeState (s : jsval) (c : Context) : Context :=
  {| state := s; currentItem := currentItem c;
     currentPosition := currentPosition c; tokens := tokens c;
     finished := finished c; buffer := buffer c;
     charstack := charstack c; callstack := callstack c |}.

(** [Context.emit]: [this.tokens.push(token)]. *)
Definition ctx_emit (t : Token) (c : Context) : Context :=
  {| state := state c; currentItem := currentItem c;
     currentPosition := currentPosition c; tokens := app (tokens c) [t];
     finished := finished c; buffer := buffer c;
     charstack := charstack c; callstack := callstack c |}.

Definition set_buffer (b : string) (c : Context) : Context :=
  {| state := state c; currentItem := currentItem c;
     currentPosition := currentPosition c; tokens := tokens c;
     finished := finished c; buffer := b;
     charstack := charstack c; callstack := callstack c |}.

Definition set_charstack (s : option (list jsval)) (c : Context) : Context :=
  {| state := state c; currentItem := currentItem c;
     currentPosition := currentPosition c; tokens := tokens c;
     finished := finished c; buffer := buffer c;
     charstack := s; callstack := callstack c |}.

Definition set_callstack (s : option (list jsval)) (c : Context) : Context :=
  {| state := state c; currentItem := currentItem c;
     currentPosition := currentPosition c; tokens := tokens c;
     finished := finished c; buffer := buffer c;
     charstack := charstack c; callstack := s |}.

Definition set_tokens (ts : list Token) (c : Context) : Context :=
  {| state := state c; currentItem := currentItem c;
     currentPosition := currentPosition c; tokens := ts;
     finished := finished c; buffer := buffer c;
     charstack := charstack c; callstack := callstack c |}.

(** [context.currentItem = inputStream.next(); context.currentPosition++] *)
Definition set_item (it : jsval) (c : Context) : Context :=
  {| state := state c; currentItem := it;
     currentPosition := (currentPosition c + 1)%Z; tokens := tokens c;
     finished := finished c; buffer := buffer c;
     charstack := charstack c; callstack := callstack c |}.

Definition set_finished (c : Context) : Context :=
  {| state := state c; currentItem := currentItem c;
     currentPosition := currentPosition c; tokens := tokens c;
     finished := true; buffer := buffer c;
     charstack := charstack c; callstack := callstack c |}.

(** JS [arr[arr.length-1]]: [undefined] on an empty array. *)
Definition js_top (l : list jsval) : jsval :=
  match last l with Some x => x | None => None end.

(** [ctx.currentPosition] in a template literal. *)
Definition pos_str (z : Z) : string := pretty z.

(** Executes one action (tokenizer.js). *)
Definition exec_action (a : Action) (c : Context) : result Context :=
  match a with
  | accept =>
      (* ctx.buffer += ctx.currentItem *)
      Ok (set_buffer (buffer c ++ js_str (currentItem c)) c)
  | emit ty =>
      Ok (set_buffer "" (ctx_emit (mkToken ty (buffer c)) c))
  | state_ name => Ok (changeState (Some name) c)
  | call name =>
      let stk := match callstack c with Some s => s | None => [] end in
      Ok (changeState (Some name) (set_callstack (Some (app stk [state c])) c))
  | ret =>
      match callstack c with
      | None | Some [] =>
          Err ("Can't return from state '" ++ js_str (state c) ++ "'; callstack empty")
      | Some stk =>
          Ok (changeState (js_top stk) (set_callstack (Some (removelast stk)) c))
      end
  | error msg =>
      Err (msg ++ " at position " ++ pos_str (currentPosition c) ++ " ('"
               ++ js_str (currentItem c) ++ "')")
  | push =>
      let stk := match charstack c with Some s => s | None => [] end in
      Ok (set_charstack (Some (app stk [currentItem c])) c)
  end.

(** [for(let action of actions) action(context)] *)
Fixpoint exec_actions (l : list Action) (c : Context) : result Context :=
  match l with
  | [] => Ok c
  | a :: l' => let! c' := exec_action a c in exec_actions l' c'
  end.


(** Evaluates a matcher on the context; [pop()] may mutate it. *)
Definition eval_matcher (m : Matcher) (c : Context) : result (bool * Context) :=
  match m with
  | lit s => Ok (js_eqb (currentItem c) (Some s), c)
  | regex p =>
      match currentItem c with
      | Some s => Ok (p s, c)
      | None => Err "TypeError: Cannot read properties of undefined (reading 'match')"
      end
  | pop =>
      match charstack c with
      | None => Ok (false, c)
      | Some stk =>
          if js_eqb (currentItem c) (js_top stk)
          then Ok (true, set_charstack (Some (removelast stk)) c)
          else Ok (false, c)
      end
  end.

(** [state.matchers.find(m => m.matcher(context))] *)
Fixpoint find_rule (rs : list Rule) (c : Context) : result (option Rule * Context) :=
  match rs with
  | [] => Ok (None, c)
  | r :: rs' =>
      let! bc := eval_matcher (matcher r) c in
      let '(b, c') := bc in
      if b then Ok (Some r, c') else find_rule rs' c'
  end.

(* ------------------------------------------------------------------ *)
(** * The run loop: [StateMachine.process] *)

(** The state table [this.states]: a plain object from state name to state
    object (names are assumed not to be [Object.prototype] properties). *)
Abbreviation Table := (gmap string StateObj).

(** A stream from [streamify] over a string: the characters not yet
    returned by [next()]; once empty, [next()] keeps returning [undefined]. *)
Fixpoint chars (s : string) : list string :=
  match s with
  | EmptyString => []
  | String a s' => String a EmptyString :: chars s'
  end.

(** Per-run state of [process]: the closed-over Context and input stream. *)
Record Run := mkRun { ctx : Context; rest : list string }.

(** [const state = this.states[context.state]]; using [state.endActions] or
    [state.matchers] of a missing state throws a TypeError. *)
Definition lookup_state (states : Table) (s : jsval) : result StateObj :=
  match states !! js_key s with
  | Some st => Ok st
  | None => Err "TypeError: Cannot read properties of undefined"
  end.

(** Lines 79-90: first matching rule, else the default actions. *)
Definition run_item (states : Table) (c : Context) : result Context :=
  let! st := lookup_state states (state c) in
  let! rc := find_rule (matchers st) c in
  let acts := match fst rc with
              | Some r => actions r
              | None => defaultActions st
              end in
  exec_actions acts (snd rc).

(** Lines 71-74: the end actions of the active state. *)
Definition run_end (states : Table) (c : Context) : result Context :=
  let! st := lookup_state states (state c) in
  exec_actions (endActions st) c.

(** [context.tokens.shift()]: [undefined] on an empty queue. *)
Definition shift (c : Context) : option Token * Context :=
  match tokens c with
  | [] => (None, c)
  | t :: ts => (Some t, set_tokens ts c)
  end.

(** The do-while loop of lines 64-93, one iteration per pulled item. *)
Fixpoint loop (states : Table) (c : Context) (rest : list string)
  : result (option Token * Run) :=
  match rest with
  | [] =>
      let c1 := set_item None c in
      let! c2 := run_end states c1 in
      let tc := shift (set_finished c2) in
      Ok (fst tc, mkRun (snd tc) [])
  | x :: rest' =>
      let c1 := set_item (Some x) c in
      let! c2 := run_item states c1 in
      match tokens c2 with
      | [] => loop states c2 rest'
      | _ :: _ => let tc := shift c2 in Ok (fst tc, mkRun (snd tc) rest')
      end
  end.

(** The [next()] method of the stream returned by [process]. *)
Definition next (states : Table) (r : Run) : result (option Token * Run) :=
  let c := ctx r in
  if finished c then Ok (None, r)
  else match tokens c with
       | _ :: _ => let tc := shift c in Ok (fst tc, mkRun (snd tc) (rest r))
       | [] => loop states c (rest r)
       end.

(** The iterations of the do-while loop run by one call [loop states c rs]:
    [loop_visits states c rs c' rs'] holds when some iteration pulls an item
    (or the end of input), giving the context [c'] right after
    [context.currentItem = stream.next(); context.currentPosition++], from
    which it evaluates the matchers and runs actions, with [rs'] still unread.
    The loop goes past an item only when its actions queued no token. *)
Inductive loop_visits (states : Table) : Context -> list string -> Context -> list string -> Prop :=
| visits_end (c : Context) :
    loop_visits states c [] (set_item None c) []
| visits_item (c : Context) (x : string) (rs : list string) :
    loop_visits states c (x :: rs) (set_item (Some x) c) rs
| visits_later (c c2 c' : Context) (x : string) (rs rs' : list string) :
    run_item states (set_item (Some x) c) = Ok c2 ->
    tokens c2 = [] ->
    loop_visits states c2 rs c' rs' ->
    loop_visits states c (x :: rs) c' rs'.

(** [new Context(this.defaultState)] followed by the Tokenizer's context
    initializer ([ctx.buffer = ""]). *)
Definition initial_context (defaultState : jsval) : Context :=
  mkContext defaultState None (-1)%Z [] false "" None None.

(** [process(input)] on a string input. *)
Definition process (defaultState : jsval) (input : string) : Run :=
  mkRun (initial_context defaultState) (chars input).

(** [n] successive calls of [next()]. *)
Fixpoint pulls (states : Table) (n : nat) (r : Run)
  : result (list (option Token) * Run) :=
  match n with
  | O => Ok ([], r)
  | S n' =>
      let! tr := next states r in
      let! lr := pulls states n' (snd tr) in
      Ok (fst tr :: fst lr, snd lr)
  end.

(** How reading a run with [next()] until [undefined] ends. *)
Inductive Outcome := Ended | Raised (msg : string) | OutOfFuel.

(** [consumeStream]: reads tokens until [undefined] or an exception. *)
Fixpoint collect (states : Table) (fuel : nat) (r : Run) : list Token * Outcome :=
  match fuel with
  | O => ([], OutOfFuel)
  | S fuel' =>
      match next states r with
      | Err e => ([], Raised e)
      | Ok (None, _) => ([], Ended)
      | Ok (Some t, r') =>
          let '(ts, o) := collect states fuel' r' in (t :: ts, o)
      end
  end.

(* ------------------------------------------------------------------ *)
(** * The builder: [StateMachineBuilder] *)

(** Addresses of mutable objects, and the heap of state tables: the
    [this.states] object of a builder is shared by reference with every
    StateMachine its [build()] returns. *)
Abbreviation loc := nat.
Abbreviation World := (gmap loc Table).

(** A builder's fields ([matcherWrapper] and [contextInitializer] are the
    Tokenizer's).  [currentState] is named by the key of the state object it
    references. *)
Record Builder := mkBuilder {
  b_states : loc;
  currentState : option string;
  b_defaultState : jsval
}.

(** [new StateMachine(defaultState, states, contextInitializer)] *)
Record StateMachine := mkStateMachine { defaultState : jsval; sm_states : loc }.

(** JS truthiness of a string or [undefined]. *)
Definition truthy (v : jsval) : bool :=
  match v with Some s => negb (String.eqb s "") | None => false end.

(** [stateMachineBuilder()] (as called by [Tokenizer()]): [this.states = {}]. *)
Definition stateMachineBuilder (w : World) : World * Builder :=
  let l := fresh (dom w) in
  (<[l := ∅]> w, mkBuilder l None None).

Definition table_of (w : World) (l : loc) : Table :=
  match w !! l with Some t => t | None => ∅ end.

(** [.state(name)] *)
Definition builder_state (name : string) (w : World) (b : Builder) : World * Builder :=
  let tbl := table_of w (b_states b) in
  let w' := match tbl !! name with
            | Some _ => w
            | None => <[b_states b := <[name := mkStateObj name [] [] []]> tbl]> w
            end in
  let d := if truthy (b_defaultState b) then b_defaultState b else Some name in
  (w', mkBuilder (b_states b) (Some name) d).

(** Updates the state object [this.currentState] in place; with no current
    state the property access throws the TypeError [err]. *)
Definition update_current (err : string) (f : StateObj -> StateObj) (w : World) (b : Builder)
  : result (World * Builder) :=
  let tbl := table_of w (b_states b) in
  match currentState b with
  | None => Err err
  | Some n =>
      match tbl !! n with
      | None => Err err
      | Some so => Ok (<[b_states b := <[n := f so]> tbl]> w, b)
      end
  end.

(** [.on(matcher, ...actions)]: [this.currentState.matchers.push({matcher, actions})]. *)
Definition builder_on (m : Matcher) (acts : list Action) :=
  update_current "TypeError: Cannot read properties of undefined (reading 'matchers')"
    (fun so => mkStateObj (so_name so) (app (matchers so) [mkRule m acts])
                          (defaultActions so) (endActions so)).

(** [.onEnd(...actions)]: [this.currentState.endActions = actions]. *)
Definition builder_onEnd (acts : list Action) :=
  update_current "TypeError: Cannot set properties of undefined (setting 'endActions')"
    (fun so => mkStateObj (so_name so) (matchers so) (defaultActions so) acts).

(** [.else(...actions)]: [this.currentState.defaultActions = actions]. *)
Definition builder_else (acts : list Action) :=
  update_current "TypeError: Cannot set properties of undefined (setting 'defaultActions')"
    (fun so => mkStateObj (so_name so) (matchers so) acts (endActions so)).

(** [.build()]: shares [this.states] (see its TODO). *)
Definition build (b : Builder) : StateMachine :=
  mkStateMachine (b_defaultState b) (b_states b).

(** A chain of builder calls. *)
Inductive BuilderCall :=
| BState (name : string)
| BOn (m : Matcher) (acts : list Action)
| BOnEnd (acts : list Action)
| BElse (acts : list Action).

Definition builder_call (c : BuilderCall) (w : World) (b : Builder)
  : result (World * Builder) :=
  match c with
  | BState n => Ok (builder_state n w b)
  | BOn m acts => builder_on m acts w b
  | BOnEnd acts => builder_onEnd acts w b
  | BElse acts => builder_else acts w b
  end.

Fixpoint builder_calls (cs : list BuilderCall) (w : World) (b : Builder)
  : result (World * Builder) :=
  match cs with
  | [] => Ok (w, b)
  | c :: cs' => let! wb := builder_call c w b in builder_calls cs' (fst wb) (snd wb)
  end.

(** [Tokenizer()....build()] in world [w]. *)
Definition build_tokenizer (cs : list BuilderCall) (w : World)
  : result (World * StateMachine) :=
  let wb := stateMachineBuilder w in
  let! wb' := builder_calls cs (fst wb) (snd wb) in
  Ok (fst wb', build (snd wb')).

(** The end actions of state [n] of a table. *)
Definition end_actions_of (t : Table) (n : string) : option (list Action) :=
  option_map endActions (t !! n).

(** The state table a machine reads from, in world [w]. *)
Definition states_of (w : World) (m : StateMachine) : Table := table_of w (sm_states m).

(* ------------------------------------------------------------------ *)
(** * Scenario tokenizers *)

(** Scenario A: [text] and [color] states delimited by [ and ]. *)
Definition scenarioA : list BuilderCall :=
  [ BState "text";
      BOn (lit "[") [emit "text"; state_ "color"];
      BOnEnd [emit "text"];
      BElse [accept];
    BState "color";
      BOn (lit "]") [emit "color"; state_ "text"];
      BElse [accept] ].

(** Scenario C: Scenario A with an end rule on [color]. *)
Definition scenarioC : list BuilderCall :=
  app scenarioA [BOnEnd [error "Unclosed color tag"]].

(** Builds a tokenizer in an empty world and reads a run to its end. *)
Definition tokenize (cs : list BuilderCall) (input : string) : list Token * Outcome :=
  match build_tokenizer cs ∅ with
  | Ok (w, m) => collect (states_of w m) (S (S (String.length input)))
                          (process (defaultState m) input)
  | Err e => ([], Raised e)
  end.

(** A tokenizer whose only state emits two tokens at end of input. *)
Definition twoEndTokens : list BuilderCall :=
  [ BState "s"; BOnEnd [emit "x"; emit "y"] ].

(** A tokenizer that is modified after [build()]. *)
Definition lateEdit : list BuilderCall :=
  [ BState "a"; BOnEnd [emit "t"]; BElse [accept] ].

(* ------------------------------------------------------------------ *)
(** * Streams (util.js) *)

Section Streams.
Variables A B OS : Type.

(** [streamify(iterable)] over an array: the stream's state is
    [inputPosition]; an element may itself be [undefined] ([None]). *)
Definition streamify_next (arr : list (option A)) (pos : nat) : option A * nat :=
  if Nat.leb (List.length arr) pos then (None, pos) else (nth pos arr None, S pos).

(** JS truthiness of the stream's values, as used by [consumeStream]. *)
Variable truthy_val : A -> bool.

(** [consumeStream(streamify(arr), consumer)]: the values handed to the
    consumer, reading at most [fuel] values. *)
Fixpoint consumeStream (fuel : nat) (arr : list (option A)) (pos : nat) : list A :=
  match fuel with
  | O => []
  | S fuel' =>
      match streamify_next arr pos with
      | (Some v, pos') => if truthy_val v then v :: consumeStream fuel' arr pos' else []
      | (None, _) => []
      end
  end.

(** The operator of [streamOperator], with the state of its closure:
    [operator(value, emit)] returns the values it passed to [emit], in order;
    an emitted value may itself be [undefined] ([None]). *)
Variable op : OS -> option A -> OS * list (option B).

(** The stream returned by [streamOperator(stream, operator, finalize)] over
    an input stream given by the values it has not returned yet. *)
Record OpStream := mkOpStream {
  src : list (option A);
  obuf : list (option B);
  fin : bool;
  ost : OS
}.

(** The [while(true)] loop of [next()], entered with an empty [buffer]:
    [buffer.shift()] returns the first emitted value, whatever it is. *)
Fixpoint op_loop (l : list (option A)) (f : bool) (os : OS) : option B * OpStream :=
  match l with
  | [] =>
      if f then
        let '(os', out) := op os None in
        match out with
        | b :: bs => (b, mkOpStream [] bs false os')
        | [] => (None, mkOpStream [] [] false os')
        end
      else (None, mkOpStream [] [] false os)
  | None :: l' =>
      if f then
        let '(os', out) := op os None in
        match out with
        | b :: bs => (b, mkOpStream l' bs false os')
        | [] => op_loop l' false os'
        end
      else (None, mkOpStream l' [] false os)
  | Some v :: l' =>
      let '(os', out) := op os (Some v) in
      match out with
      | b :: bs => (b, mkOpStream l' bs f os')
      | [] => op_loop l' f os'
      end
  end.

(** [next()] of the stream returned by [streamOperator]. *)
Definition op_next (s : OpStream) : option B * OpStream :=
  match obuf s with
  | b :: bs => (b, mkOpStream (src s) bs (fin s) (ost s))
  | [] => op_loop (src s) (fin s) (ost s)
  end.

(** Reads the operator stream until [undefined], at most [fuel] values. *)
Fixpoint op_collect (fuel : nat) (s : OpStream) : list B :=
  match fuel with
  | O => []
  | S fuel' =>
      match op_next s with
      | (Some b, s') => b :: op_collect fuel' s'
      | (None, _) => []
      end
  end.

(** The operator applied to each value in turn: its final closure state and
    everything it emitted, in order. *)
Fixpoint op_fold (os : OS) (l : list A) : OS * list (option B) :=
  match l with
  | [] => (os, [])
  | v :: l' =>
      let '(os1, out) := op os (Some v) in
      let '(os2, rest) := op_fold os1 l' in
      (os2, app out rest)
  end.

End Streams.

Arguments mkOpStream {A B OS} _ _ _ _.
Arguments src {A B OS} _.
Arguments obuf {A B OS} _.
Arguments fin {A B OS} _.
Arguments ost {A B OS} _.
Arguments streamify_next {A} _ _.
Arguments consumeStream {A} _ _ _ _.
Arguments op_loop {A B OS} _ _ _ _.
Arguments op_next {A B OS} _ _.
Arguments op_collect {A B OS} _ _ _.
Arguments op_fold {A B OS} _ _ _.

(* ------------------------------------------------------------------ *)
(** * Lemmas about the run loop *)

Lemma next_finished (states : Table) (r : Run) :
  finished (ctx r) = true -> next states r = Ok (None, r).
Proof. intros H. unfold next. rewrite H. reflexivity. Qed.

Lemma pulls_finished (states : Table) (k : nat) (r : Run) :
  finished (ctx r) = true -> pulls states k r = Ok (repeat None k, r).
Proof.
  intros H. induction k as [|k IH]; [reflexivity|].
  simpl. rewrite (next_finished states r H). simpl. rewrite IH. reflexivity.
Qed.

Lemma exec_action_frame (a : Action) (c c' : Context) :
  exec_action a c = Ok c' ->
  currentPosition c' = currentPosition c /\ finished c' = finished c.
Proof.
  destruct a; simpl; intros H;
    try (injection H as <-; split; reflexivity).
  - destruct (callstack c) as [[|x l]|]; try discriminate.
    injection H as <-. split; reflexivity.
  - discriminate.
Qed.

Lemma exec_actions_frame (l : list Action) (c c' : Context) :
  exec_actions l c = Ok c' ->
  currentPosition c' = currentPosition c /\ finished c' = finished c.
Proof.
  revert c. induction l as [|a l IH]; simpl; intros c H.
  - injection H as <-. split; reflexivity.
  - destruct (exec_action a c) as [c1|e] eqn:E; simpl in H; [|discriminate].
    destruct (IH c1 H) as [-> ->]. apply (exec_action_frame a c c1 E).
Qed.

Lemma eval_matcher_frame (m : Matcher) (c c' : Context) (b : bool) :
  eval_matcher m c = Ok (b, c') ->
  currentPosition c' = currentPosition c /\ finished c' = finished c.
Proof.
  destruct m; simpl; intros H.
  - injection H as _ <-. split; reflexivity.
  - destruct (currentItem c); [|discriminate]. injection H as _ <-. split; reflexivity.
  - destruct (charstack c) as [stk|].
    + destruct (js_eqb (currentItem c) (js_top stk)); injection H as _ <-; split; reflexivity.
    + injection H as _ <-. split; reflexivity.
Qed.

Lemma find_rule_frame (rs : list Rule) (c c' : Context) (o : option Rule) :
  find_rule rs c = Ok (o, c') ->
  currentPosition c' = currentPosition c /\ finished c' = finished c.
Proof.
  revert c. induction rs as [|r rs IH]; simpl; intros c H.
  - injection H as _ <-. split; reflexivity.
  - destruct (eval_matcher (matcher r) c) as [[b c1]|e] eqn:E; simpl in H; [|discriminate].
    destruct (eval_matcher_frame _ _ _ _ E) as [P F].
    destruct b.
    + injection H as _ <-. split; assumption.
    + destruct (IH c1 H) as [P' F']. rewrite P', F'. split; assumption.
Qed.

Lemma run_item_frame (states : Table) (c c' : Context) :
  run_item states c = Ok c' ->
  currentPosition c' = currentPosition c /\ finished c' = finished c.
Proof.
  unfold run_item. destruct (lookup_state states (state c)) as [st|e]; simpl; [|discriminate].
  destruct (find_rule (matchers st) c) as [[o c1]|e] eqn:E; simpl; [|discriminate].
  intros H. destruct (exec_actions_frame _ _ _ H) as [-> ->].
  apply (find_rule_frame _ _ _ _ E).
Qed.

Lemma run_end_frame (states : Table) (c c' : Context) :
  run_end states c = Ok c' ->
  currentPosition c' = currentPosition c /\ finished c' = finished c.
Proof.
  unfold run_end. destruct (lookup_state states (state c)) as [st|e]; simpl; [|discriminate].
  apply exec_actions_frame.
Qed.

(** Between two calls of [next()], the position counter plus one is the
    number of items pulled from the stream so far: the characters consumed,
    plus the final pull that observed [undefined] once the run finished. *)
Definition position_invariant (input : string) (r : Run) : Prop :=
  exists pre : list string,
    chars input = app pre (rest r) /\
    (currentPosition (ctx r) + 1 =
       Z.of_nat (length pre) + (if finished (ctx r) then 1 else 0))%Z /\
    (finished (ctx r) = true -> rest r = []).

Lemma shift_frame (c : Context) :
  currentPosition (snd (shift c)) = currentPosition c /\
  finished (snd (shift c)) = finished c.
Proof. unfold shift. destruct (tokens c); split; reflexivity. Qed.

Lemma loop_position (states : Table) (input : string) (rs : list string) :
  forall (c : Context) (pre : list string) (t : option Token) (r' : Run),
  chars input = app pre rs ->
  (currentPosition c + 1 = Z.of_nat (length pre))%Z ->
  finished c = false ->
  loop states c rs = Ok (t, r') ->
  position_invariant input r'.
Proof.
  induction rs as [|x rs IH]; intros c pre t r' Hin Hpos Hfin H; simpl in H.
  - destruct (run_end states (set_item None c)) as [c2|e] eqn:E; simpl in H; [|discriminate].
    injection H as _ <-.
    destruct (run_end_frame _ _ _ E) as [P _].
    destruct (shift_frame (set_finished c2)) as [P' F'].
    exists pre. simpl. rewrite P', F'. simpl. rewrite P. simpl.
    split; [exact Hin|]. split; [lia|reflexivity].
  - destruct (run_item states (set_item (Some x) c)) as [c2|e] eqn:E; simpl in H; [|discriminate].
    destruct (run_item_frame _ _ _ E) as [P F]. simpl in P, F.
    destruct (tokens c2) as [|t0 ts] eqn:T.
    + apply (IH c2 (app pre [x]) t r'); [| |congruence|exact H].
      * rewrite Hin, <- app_assoc. reflexivity.
      * rewrite P, length_app. simpl. lia.
    + injection H as _ <-.
      destruct (shift_frame c2) as [P' F'].
      exists (app pre [x]). simpl. rewrite P', F', F, Hfin.
      split; [rewrite Hin, <- app_assoc; reflexivity|].
      split; [rewrite P, length_app; simpl; lia|discriminate].
Qed.

Lemma next_position (states : Table) (input : string) (r : Run) (t : option Token) (r' : Run) :
  position_invariant input r ->
  next states r = Ok (t, r') ->
  position_invariant input r'.
Proof.
  intros (pre & Hin & Hpos & Hfin) H. unfold next in H.
  destruct (finished (ctx r)) eqn:F.
  - injection H as _ <-. exists pre. rewrite F. auto.
  - destruct (tokens (ctx r)) as [|t0 ts] eqn:T.
    + apply (loop_position states input (rest r) (ctx r) pre t r');
        [exact Hin|lia|exact F|exact H].
    + injection H as _ <-. destruct (shift_frame (ctx r)) as [P' F'].
      exists pre. simpl. rewrite P', F', F.
      split; [exact Hin|]. split; [exact Hpos|discriminate].
Qed.

Lemma pulls_position (states : Table) (input : string) (k : nat) :
  forall (r : Run) (ts : list (option Token)) (r' : Run),
  position_invariant input r ->
  pulls states k r = Ok (ts, r') ->
  position_invariant input r'.
Proof.
  induction k as [|k IH]; intros r ts r' Hr H; simpl in H.
  - injection H as _ <-. exact Hr.
  - destruct (next states r) as [[t r1]|e] eqn:E; simpl in H; [|discriminate].
    destruct (pulls states k r1) as [[ts1 r2]|e] eqn:E2; simpl in H; [|discriminate].
    injection H as _ <-.
    apply (IH r1 ts1 r2); [apply (next_position states input r t r1 Hr E)|exact E2].
Qed.

Lemma loop_visits_position (states : Table) (input : string)
  (c : Context) (rs : list string) (c' : Context) (rs' : list string) :
  loop_visits states c rs c' rs' ->
  forall pre : list string,
  chars input = app pre rs ->
  (currentPosition c + 1 = Z.of_nat (List.length pre))%Z ->
  exists pre' : list string,
    chars input =
      app pre' (app (match currentItem c' with Some y => [y] | None => [] end) rs') /\
    currentPosition c' = Z.of_nat (List.length pre').
Proof.
  induction 1 as [c|c x rs|c c2 c' x rs rs' R K _ IH]; intros pre Hin Hpos.
  - exists pre. simpl. split; [exact Hin|lia].
  - exists pre. simpl. split; [exact Hin|lia].
  - destruct (run_item_frame _ _ _ R) as [P _]. simpl in P.
    apply (IH (app pre [x])).
    + rewrite Hin, <- app_assoc. reflexivity.
    + rewrite P, length_app. simpl. lia.
Qed.

Lemma loop_error_visits (states : Table) (rs : list string) :
  forall (c : Context) (e : string),
  loop states c rs = Err e ->
  exists (c' : Context) (rs' : list string),
    loop_visits states c rs c' rs' /\
    (run_item states c' = Err e \/ run_end states c' = Err e).
Proof.
  induction rs as [|x rs IH]; intros c e H; simpl in H.
  - destruct (run_end states (set_item None c)) as [c2|e'] eqn:E; simpl in H; [discriminate|].
    injection H as <-. exists (set_item None c), []. split; [constructor|right; exact E].
  - destruct (run_item states (set_item (Some x) c)) as [c2|e'] eqn:E; simpl in H.
    + destruct (tokens c2) as [|t0 ts] eqn:T; [|discriminate].
      destruct (IH c2 e H) as (c' & rs' & V & R).
      exists c', rs'. split; [apply (visits_later states c c2 c' x rs rs' E T V)|exact R].
    + injection H as <-. exists (set_item (Some x) c), rs. split; [constructor|left; exact E].
Qed.

Lemma builder_calls_keep_default (cs : list BuilderCall) :
  forall (w w' : World) (b b' : Builder),
  truthy (b_defaultState b) = true ->
  builder_calls cs w b = Ok (w', b') ->
  b_defaultState b' = b_defaultState b.
Proof.
  induction cs as [|c cs IH]; simpl; intros w w' b b' Ht H.
  - injection H as _ <-. reflexivity.
  - assert (K : forall w1 b1, builder_call c w b = Ok (w1, b1) ->
                b_defaultState b1 = b_defaultState b).
    { intros w1 b1 E. destruct c; simpl in E.
      - unfold builder_state in E. rewrite Ht in E. injection E as _ <-. reflexivity.
      - unfold builder_on, update_current in E.
        destruct (currentState b); [|discriminate].
        destruct (table_of w (b_states b) !! s); [|discriminate].
        injection E as _ <-. reflexivity.
      - unfold builder_onEnd, update_current in E.
        destruct (currentState b); [|discriminate].
        destruct (table_of w (b_states b) !! s); [|discriminate].
        injection E as _ <-. reflexivity.
      - unfold builder_else, update_current in E.
        destruct (currentState b); [|discriminate].
        destruct (table_of w (b_states b) !! s); [|discriminate].
        injection E as _ <-. reflexivity. }
    destruct (builder_call c w b) as [[w1 b1]|e] eqn:E; simpl in H; [|discriminate].
    rewrite <- (K w1 b1 eq_refl).
    apply (IH w1 w' b1 b'); [rewrite (K w1 b1 eq_refl); exact Ht|exact H].
Qed.



(* ------------------------------------------------------------------ *)
(** * Claims *)









(** C2 (code_bug): with two tokens queued by the initial state's end rule on
    an empty input, the first pull returns the first token and every later
    pull returns [undefined]; the second token stays in the queue, because
    [next()] tests [context.finished] before the queue. *)
Theorem end_queue_dropped_after_first :
  match build_tokenizer twoEndTokens ∅ with
  | Ok (w, m) =>
      match pulls (states_of w m) 3 (process (defaultState m) "") with
      | Ok (ts, r) =>
          ts = [Some (mkToken "x" ""); None; None] /\
          tokens (ctx r) = [mkToken "y" ""] /\ finished (ctx r) = true
      | Err _ => False
      end
  | Err _ => False
  end.
Proof. vm_compute. split; [reflexivity|split; reflexivity]. Qed.

(** C3 (code_bug): [build()] shares the builder's state table, so a builder
    call made after [build()] changes the table the built machine reads, and
    runs started before and after it produce different tokens. *)
Theorem built_machine_sees_later_builder_calls :
  let wb := stateMachineBuilder ∅ in
  match builder_calls lateEdit (fst wb) (snd wb) with
  | Ok (w1, b1) =>
      let m := build b1 in
      match builder_onEnd [emit "u"] w1 b1 with
      | Ok (w2, _) =>
          states_of w1 m <> states_of w2 m /\
          collect (states_of w1 m) 3 (process (defaultState m) "x")
            = ([mkToken "t" "x"], Ended) /\
          collect (states_of w2 m) 3 (process (defaultState m) "x")
            = ([mkToken "u" "x"], Ended)
      | Err _ => False
      end
  | Err _ => False
  end.
Proof.
  vm_compute. split; [|split; reflexivity].
  intros H. apply (f_equal (fun t => end_actions_of t "a")) in H.
  vm_compute in H. congruence.
Qed.

(** C4: when the rules before [r] in the active state all evaluate false and
    [r]'s matcher evaluates true, the item runs exactly [r]'s actions, on the
    context left by [r]'s matcher; the rules after [r] play no part. *)
Theorem first_match_wins (states : Table) (c c1 : Context) (st : StateObj)
  (pre : list Rule) (r : Rule) (post : list Rule) :
  lookup_state states (state c) = Ok st ->
  matchers st = app pre (r :: post) ->
  Forall (fun r' => eval_matcher (matcher r') c = Ok (false, c)) pre ->
  eval_matcher (matcher r) c = Ok (true, c1) ->
  run_item states c = exec_actions (actions r) c1.
Proof.
  intros Hst Hm Hpre Hr. unfold run_item. rewrite Hst. simpl. rewrite Hm.
  clear Hm Hst.
  assert (F : find_rule (app pre (r :: post)) c = Ok (Some r, c1)).
  { induction Hpre as [|r' pre' Hr' _ IH]; simpl.
    - rewrite Hr. reflexivity.
    - rewrite Hr'. simpl. exact IH. }
  rewrite F. reflexivity.
Qed.

(** Example data for C4: a state whose second and third rules both match "b". *)
Definition fmw_states : Table :=
  {[ "s" := mkStateObj "s"
              [ mkRule (lit "a") [emit "1"];
                mkRule (lit "b") [emit "2"];
                mkRule (regex (fun _ => true)) [emit "3"] ] [] [] ]}.

Definition fmw_ctx : Context :=
  mkContext (Some "s") (Some "b") 0%Z [] false "b" None None.

Lemma first_match_wins_witness :
  lookup_state fmw_states (state fmw_ctx)
    = Ok (mkStateObj "s"
            [ mkRule (lit "a") [emit "1"];
              mkRule (lit "b") [emit "2"];
              mkRule (regex (fun _ => true)) [emit "3"] ] [] []) /\
  run_item fmw_states fmw_ctx = exec_actions [emit "2"] fmw_ctx.
Proof.
  split; [vm_compute; reflexivity|].
  apply (first_match_wins fmw_states fmw_ctx fmw_ctx
           (mkStateObj "s"
              [ mkRule (lit "a") [emit "1"];
                mkRule (lit "b") [emit "2"];
                mkRule (regex (fun _ => true)) [emit "3"] ] [] [])
           [mkRule (lit "a") [emit "1"]] (mkRule (lit "b") [emit "2"])
           [mkRule (regex (fun _ => true)) [emit "3"]]).
  - vm_compute. reflexivity.
  - reflexivity.
  - constructor; [vm_compute; reflexivity|constructor].
  - vm_compute. reflexivity.
Defined.

(** C5: the Scenario C tokenizer on "a[b" returns the text token "a", then
    throws an Error whose message is "Unclosed color tag" followed by the
    position 3 and the end-of-input item ([undefined]). *)
Theorem scenarioC_unclosed_color :
  tokenize scenarioC "a[b" =
    ([mkToken "text" "a"],
     Raised ("Unclosed color tag" ++ " at position " ++ pos_str 3 ++ " ('"
             ++ js_str None ++ "')")).
Proof. vm_compute. reflexivity. Qed.

(** C6: the Scenario A tokenizer on "a[b]c" yields text "a", color "b",
    text "c", and every later pull returns [undefined]. *)
Theorem scenarioA_tokens :
  match build_tokenizer scenarioA ∅ with
  | Ok (w, m) =>
      match pulls (states_of w m) 3 (process (defaultState m) "a[b]c") with
      | Ok (ts, r) =>
          ts = [Some (mkToken "text" "a"); Some (mkToken "color" "b");
                Some (mkToken "text" "c")] /\
          forall k : nat, pulls (states_of w m) k r = Ok (repeat None k, r)
      | Err _ => False
      end
  | Err _ => False
  end.
Proof.
  destruct (build_tokenizer scenarioA ∅) as [[w m]|e] eqn:E;
    [|vm_compute in E; discriminate].
  destruct (pulls (states_of w m) 3 (process (defaultState m) "a[b]c"))
    as [[ts r]|e] eqn:P;
    vm_compute in E; injection E as <- <-; vm_compute in P; try discriminate.
  injection P as <- <-. split; [reflexivity|].
  intros k. apply pulls_finished. reflexivity.
Qed.

(** C7: on a defined current item (the run loop evaluates matchers only on
    items pulled from the input), [pop()] is true exactly when the item is
    the last value pushed and not yet popped; it then removes exactly that
    entry, and when false it leaves the context unchanged. *)
Theorem pop_matches_top (c : Context) (x : string) :
  currentItem c = Some x ->
  (charstack c = None -> eval_matcher pop c = Ok (false, c)) /\
  (charstack c = Some [] -> eval_matcher pop c = Ok (false, c)) /\
  (forall (stk : list jsval) (v : jsval), charstack c = Some (app stk [v]) ->
     (v = Some x -> eval_matcher pop c = Ok (true, set_charstack (Some stk) c)) /\
     (v <> Some x -> eval_matcher pop c = Ok (false, c))).
Proof.
  intros Hx. split; [|split].
  - intros H. simpl. rewrite H. reflexivity.
  - intros H. simpl. rewrite H, Hx. reflexivity.
  - intros stk v H. simpl. rewrite H, Hx.
    unfold js_top. rewrite last_snoc, removelast_last. split.
    + intros ->. simpl. rewrite String.eqb_refl. reflexivity.
    + intros Hv. destruct v as [y|]; [|reflexivity]. simpl.
      destruct (String.eqb_spec x y) as [->|_]; [congruence|reflexivity].
Qed.

Definition pop_ctx : Context :=
  mkContext (Some "attribute_value") (Some "q") 5%Z [] false ""
            (Some [Some "p"; Some "q"]) None.

Lemma pop_matches_top_witness :
  currentItem pop_ctx = Some "q" /\
  eval_matcher pop pop_ctx = Ok (true, set_charstack (Some [Some "p"]) pop_ctx).
Proof.
  split; [reflexivity|].
  apply (proj1 (proj2 (proj2 (pop_matches_top pop_ctx "q" eq_refl)) [Some "p"] (Some "q") eq_refl)).
  reflexivity.
Defined.

(** C8: no matcher and no action changes the position counter, whether the
    run goes on or throws afterwards.  After any number of calls of [next()]
    that did not throw, the counter plus one is the number of items pulled so
    far (counting the pull that saw the end of input), however many tokens
    they queued; and in the following call of [next()], which may throw, every
    iteration of the loop starts from position [i] when it pulled the item at
    0-based index [i] of the input, and from position [length input] when it
    pulled the end of input; when that call throws, the exception comes from
    one of these iterations. *)
Theorem position_counts_pulls (states : Table) (d : jsval) (input : string) (k : nat) :
  (forall (l : list Action) (c c' : Context),
     exec_actions l c = Ok c' -> currentPosition c' = currentPosition c) /\
  (forall (rs : list Rule) (c c' : Context) (o : option Rule),
     find_rule rs c = Ok (o, c') -> currentPosition c' = currentPosition c) /\
  match pulls states k (process d input) with
  | Ok (_, r) =>
      position_invariant input r /\
      (finished (ctx r) = false -> tokens (ctx r) = [] ->
       forall (c' : Context) (rs' : list string),
         loop_visits states (ctx r) (rest r) c' rs' ->
         exists pre : list string,
           chars input =
             app pre (app (match currentItem c' with Some y => [y] | None => [] end) rs') /\
           currentPosition c' = Z.of_nat (List.length pre)) /\
      (forall e : string, next states r = Err e ->
       exists (c' : Context) (rs' : list string),
         loop_visits states (ctx r) (rest r) c' rs' /\
         (run_item states c' = Err e \/ run_end states c' = Err e))
  | Err _ => True
  end.
Proof.
  split; [intros l c c' H; apply (proj1 (exec_actions_frame l c c' H))|].
  split; [intros rs c c' o H; apply (proj1 (find_rule_frame rs c c' o H))|].
  destruct (pulls states k (process d input)) as [[ts r]|e] eqn:E; [|exact I].
  assert (I : position_invariant input r).
  { apply (pulls_position states input k (process d input) ts r); [|exact E].
    exists []. split; [reflexivity|]. split; [reflexivity|discriminate]. }
  split; [exact I|]. split.
  - intros Hf _ c' rs' V.
    destruct I as (pre & Hin & Hpos & _). rewrite Hf in Hpos.
    apply (loop_visits_position states input _ _ _ _ V pre Hin). lia.
  - intros e H. unfold next in H.
    destruct (finished (ctx r)); [discriminate|].
    destruct (tokens (ctx r)); [|discriminate].
    apply (loop_error_visits states (rest r) (ctx r) e H).
Qed.

(** C9 (code_bug): the first declared name does not stay the initial state
    when it is the empty string: [if(!this.defaultState)] treats "" as unset
    and the next declared name replaces it. *)
Theorem empty_first_state_replaced :
  let wb := stateMachineBuilder ∅ in
  match builder_calls [BState ""; BState "b"] (fst wb) (snd wb) with
  | Ok (_, b) => defaultState (build b) = Some "b"
  | Err _ => False
  end.
Proof. vm_compute. reflexivity. Qed.

(** C10: on a defined current item, [pop()] with no charstack or an empty
    one evaluates false and leaves the context unchanged, so a rule guarded
    by it is skipped. *)
Theorem pop_on_empty_stack (c : Context) (x : string) (acts : list Action) (rs : list Rule) :
  currentItem c = Some x ->
  charstack c = None \/ charstack c = Some [] ->
  eval_matcher pop c = Ok (false, c) /\
  find_rule (mkRule pop acts :: rs) c = find_rule rs c.
Proof.
  intros Hx Hs.
  assert (E : eval_matcher pop c = Ok (false, c)).
  { simpl. destruct Hs as [H|H]; rewrite H; [reflexivity|rewrite Hx; reflexivity]. }
  split; [exact E|]. cbn [find_rule matcher]. rewrite E. reflexivity.
Qed.

Definition empty_pop_ctx : Context :=
  mkContext (Some "attribute_value") (Some "q") 5%Z [] false "" (Some []) None.

Lemma pop_on_empty_stack_witness :
  currentItem empty_pop_ctx = Some "q" /\
  (charstack empty_pop_ctx = None \/ charstack empty_pop_ctx = Some []) /\
  eval_matcher pop empty_pop_ctx = Ok (false, empty_pop_ctx).
Proof.
  split; [reflexivity|]. split; [right; reflexivity|].
  apply (proj1 (pop_on_empty_stack empty_pop_ctx "q" [] []
                  eq_refl (or_intror eq_refl))).
Defined.

(* ------------------------------------------------------------------ *)
(** * Further properties of the actions and the run loop *)

Lemma ret_after_push (c : Context) (l : list jsval) (v : jsval) :
  callstack c = Some (app l [v]) ->
  exec_action ret c = Ok (changeState v (set_callstack (Some l) c)).
Proof.
  intros H. simpl. rewrite H.
  destruct (app l [v]) as [|y ys] eqn:E; [destruct l; discriminate|].
  rewrite <- E. unfold js_top. rewrite last_snoc, removelast_last. reflexivity.
Qed.

Lemma exec_actions_cons (a : Action) (l : list Action) (c c1 : Context) :
  exec_action a c = Ok c1 -> exec_actions (a :: l) c = exec_actions l c1.
Proof. intros H. simpl. rewrite H. reflexivity. Qed.

(** [ret()] after [call(a)] restores the state that made the call and the
    call stack; so do two nested calls followed by two returns. *)
Theorem call_ret_restores (c : Context) (a b : string) :
  let stk := match callstack c with Some s => s | None => [] end in
  exec_actions [call a; ret] c = Ok (set_callstack (Some stk) c) /\
  exec_actions [call a; call b; ret; ret] c = Ok (set_callstack (Some stk) c).
Proof.
  intros stk.
  assert (C : forall (d : Context) (n : string),
             exec_action (call n) d =
             Ok (changeState (Some n)
                   (set_callstack
                      (Some (app (match callstack d with Some s => s | None => [] end)
                                 [state d])) d))) by reflexivity.
  split.
  - rewrite (exec_actions_cons _ _ _ _ (C c a)).
    erewrite exec_actions_cons;
      [|apply (ret_after_push _ stk (state c)); reflexivity].
    reflexivity.
  - rewrite (exec_actions_cons _ _ _ _ (C c a)).
    rewrite (exec_actions_cons _ _ _ _ (C _ b)).
    erewrite exec_actions_cons;
      [|apply (ret_after_push _ (app stk [state c]) (Some a)); reflexivity].
    erewrite exec_actions_cons;
      [|apply (ret_after_push _ stk (state c)); reflexivity].
    reflexivity.
Qed.

(** After [push()] of a defined item, [pop()] on an item equal to it (with no
    other push or pop in between) matches and restores the value stack. *)
Theorem push_then_pop (c c1 c2 : Context) (x : string) :
  currentItem c = Some x ->
  exec_action push c = Ok c1 ->
  charstack c2 = charstack c1 ->
  currentItem c2 = Some x ->
  eval_matcher pop c2 =
    Ok (true, set_charstack (Some (match charstack c with Some s => s | None => [] end)) c2).
Proof.
  intros Hx Hp Hs Hx2. simpl in Hp. injection Hp as <-.
  simpl. rewrite Hs. simpl. rewrite Hx, Hx2.
  unfold js_top. rewrite last_snoc, removelast_last. simpl.
  rewrite String.eqb_refl. reflexivity.
Qed.

Lemma push_then_pop_witness :
  eval_matcher pop
    (mkContext (Some "attribute_value") (Some "'") 9%Z [] false ""
               (Some [Some "'"]) None) =
  Ok (true, set_charstack (Some [])
              (mkContext (Some "attribute_value") (Some "'") 9%Z [] false ""
                         (Some [Some "'"]) None)).
Proof.
  apply (push_then_pop
           (mkContext (Some "pre_attribute_value") (Some "'") 8%Z [] false "" None None)
           (mkContext (Some "pre_attribute_value") (Some "'") 8%Z [] false ""
                      (Some [Some "'"]) None)
           (mkContext (Some "attribute_value") (Some "'") 9%Z [] false ""
                      (Some [Some "'"]) None) "'");
    reflexivity.
Defined.

(** When no rule of the active state matches, its fallback runs; with no
    fallback the item is consumed with no effect. *)
Theorem no_match_runs_fallback (states : Table) (c : Context) (st : StateObj) :
  lookup_state states (state c) = Ok st ->
  Forall (fun r => eval_matcher (matcher r) c = Ok (false, c)) (matchers st) ->
  run_item states c = exec_actions (defaultActions st) c /\
  (defaultActions st = [] -> run_item states c = Ok c).
Proof.
  intros Hst Hm.
  assert (F : find_rule (matchers st) c = Ok (None, c)).
  { induction Hm as [|r rs Hr _ IH]; [reflexivity|]. simpl. rewrite Hr. exact IH. }
  assert (E : run_item states c = exec_actions (defaultActions st) c).
  { unfold run_item. rewrite Hst. simpl. rewrite F. reflexivity. }
  split; [exact E|]. intros D. rewrite E, D. reflexivity.
Qed.

Definition quiet_state : StateObj :=
  mkStateObj "s" [ mkRule (lit "a") [emit "1"]; mkRule pop [accept] ] [] [].

Definition quiet_states : Table := {[ "s" := quiet_state ]}.

Lemma no_match_runs_fallback_witness :
  lookup_state quiet_states (state fmw_ctx) = Ok quiet_state /\
  run_item quiet_states fmw_ctx = Ok fmw_ctx.
Proof.
  split; [vm_compute; reflexivity|].
  apply (proj2 (no_match_runs_fallback quiet_states fmw_ctx quiet_state
                  ltac:(vm_compute; reflexivity)
                  ltac:(constructor; [vm_compute; reflexivity|
                                      constructor; [vm_compute; reflexivity|constructor]]))).
  reflexivity.
Defined.

(** With an active state missing from the table, the next item (or the end
    of input) read by the run loop throws. *)
Lemma loop_undeclared (states : Table) (c : Context) (rs : list string) :
  states !! js_key (state c) = None ->
  exists e, loop states c rs = Err e.
Proof.
  intros Hs. destruct rs as [|x rs]; simpl; unfold run_end, run_item, lookup_state; simpl;
    rewrite Hs; simpl; eexists; reflexivity.
Qed.

(** A transition to a state that was never declared succeeds when the
    action runs; the run then throws when the loop reads the next item or
    the end of input: in the same [next()] call when the item queued no
    token, otherwise at the first pull after the queued tokens. *)
Theorem undeclared_state_fails_later (states : Table) (t : string) :
  states !! t = None ->
  (forall c : Context, exec_action (state_ t) c = Ok (changeState (Some t) c)) /\
  (forall (c c2 : Context) (x : string) (rs : list string),
     run_item states (set_item (Some x) c) = Ok c2 ->
     state c2 = Some t -> tokens c2 = [] ->
     exists e, loop states c (x :: rs) = Err e) /\
  (forall (c : Context) (rs : list string),
     state c = Some t -> finished c = false ->
     exists e, pulls states (S (List.length (tokens c))) (mkRun c rs) = Err e).
Proof.
  intros Ht. split; [reflexivity|]. split.
  - intros c c2 x rs Hr Hs Hk. simpl. rewrite Hr. simpl. rewrite Hk.
    apply loop_undeclared. rewrite Hs. exact Ht.
  - intros c rs Hs Hf. remember (tokens c) as ts eqn:Hts. revert c Hs Hf Hts.
    induction ts as [|tk ts IH]; intros c Hs Hf Hts.
    + destruct (loop_undeclared states c rs) as [e He]; [rewrite Hs; exact Ht|].
      exists e. simpl. unfold next. simpl. rewrite Hf, <- Hts, He. reflexivity.
    + destruct (IH (set_tokens ts c) Hs Hf eq_refl) as [e He].
      exists e. cbn [List.length].
      assert (P : forall n r, pulls states (S n) r =
                    let! tr := next states r in
                    let! lr := pulls states n (snd tr) in Ok (fst tr :: fst lr, snd lr))
        by reflexivity.
      rewrite (P (S (List.length ts))).
      unfold next at 1. cbn [ctx rest]. rewrite Hf, <- Hts. unfold shift. rewrite <- Hts.
      cbn [bind fst snd]. rewrite He. reflexivity.
Qed.

(** A state table whose [[] rule moves to a misspelt state. *)
Definition typo_states : Table :=
  {[ "text" := mkStateObj "text" [mkRule (lit "[") [state_ "colr"]] [accept] [] ]}.

Definition typo_ctx : Context := initial_context (Some "text").

Definition typo_after : Context :=
  match run_item typo_states (set_item (Some "[") typo_ctx) with
  | Ok c => c
  | Err _ => typo_ctx
  end.

Lemma undeclared_state_fails_later_witness :
  typo_states !! "colr" = None /\
  exists e, loop typo_states typo_ctx ["["; "b"] = Err e.
Proof.
  split; [vm_compute; reflexivity|].
  apply (proj1 (proj2 (undeclared_state_fails_later typo_states "colr"
                         ltac:(vm_compute; reflexivity)))
           typo_ctx typo_after "[" ["b"]); vm_compute; reflexivity.
Defined.

Lemma next_queued (states : Table) (c : Context) (rs : list string) (t : Token) (ts : list Token) :
  finished c = false -> tokens c = t :: ts ->
  next states (mkRun c rs) = Ok (Some t, mkRun (set_tokens ts c) rs).
Proof. intros Hf Ht. unfold next, shift. simpl. rewrite Hf, Ht. reflexivity. Qed.

(** Tokens already queued are returned by the next pulls in the order they
    were queued, without reading any input. *)
Theorem queued_tokens_returned_in_order (states : Table) (ts : list Token) :
  forall (c : Context) (rs : list string),
  finished c = false ->
  tokens c = ts ->
  pulls states (List.length ts) (mkRun c rs) = Ok (map Some ts, mkRun (set_tokens [] c) rs).
Proof.
  induction ts as [|t ts IH]; intros c rs Hf Ht.
  - simpl. destruct c; simpl in *; subst; reflexivity.
  - cbn [List.length pulls]. rewrite (next_queued states c rs t ts Hf Ht).
    cbn [bind fst snd].
    rewrite (IH (set_tokens ts c) rs Hf eq_refl). reflexivity.
Qed.

Lemma queued_tokens_returned_in_order_witness :
  finished (set_tokens [mkToken "tag_name" "b"; mkToken "close_tag" ""]
                       (initial_context (Some "text"))) = false /\
  pulls ∅ 2 (mkRun (set_tokens [mkToken "tag_name" "b"; mkToken "close_tag" ""]
                               (initial_context (Some "text"))) ["x"])
    = Ok ([Some (mkToken "tag_name" "b"); Some (mkToken "close_tag" "")],
          mkRun (initial_context (Some "text")) ["x"]).
Proof.
  split; [reflexivity|].
  apply (queued_tokens_returned_in_order ∅ [mkToken "tag_name" "b"; mkToken "close_tag" ""]);
    reflexivity.
Defined.

(* ------------------------------------------------------------------ *)
(** * Further properties of the builder *)

Lemma table_of_insert (w : World) (l : loc) (t : Table) :
  table_of (<[l := t]> w) l = t.
Proof. unfold table_of. rewrite lookup_insert_eq. reflexivity. Qed.

Lemma update_current_twice (err : string) (f g : StateObj -> StateObj) (w : World)
  (b : Builder) :
  bind (update_current err f w b) (fun wb => update_current err g (fst wb) (snd wb)) =
  update_current err (fun so => g (f so)) w b.
Proof.
  unfold update_current. destruct (currentState b) as [n|] eqn:Hc; [|reflexivity].
  destruct (table_of w (b_states b) !! n) as [so|] eqn:E; [|reflexivity].
  cbn [bind fst snd]. rewrite Hc, table_of_insert, lookup_insert_eq.
  rewrite insert_insert_eq, insert_insert_eq. reflexivity.
Qed.

(** Of two [.onEnd()] calls, or two [.else()] calls, on the same state only
    the last one counts. *)
Theorem last_onEnd_else_wins (w : World) (b : Builder) (a1 a2 : list Action) :
  bind (builder_onEnd a1 w b) (fun wb => builder_onEnd a2 (fst wb) (snd wb)) =
    builder_onEnd a2 w b /\
  bind (builder_else a1 w b) (fun wb => builder_else a2 (fst wb) (snd wb)) =
    builder_else a2 w b.
Proof.
  unfold builder_onEnd, builder_else. rewrite !update_current_twice.
  split; reflexivity.
Qed.

(** Reopening a declared state with [.state(name)] keeps its rules, and a
    following [.on()] appends a rule after them. *)
Theorem reopened_state_appends (w : World) (b : Builder) (n : string) (so : StateObj)
  (m : Matcher) (acts : list Action) :
  table_of w (b_states b) !! n = Some so ->
  match builder_calls [BState n; BOn m acts] w b with
  | Ok (w', b') =>
      table_of w' (b_states b') !! n =
        Some (mkStateObj (so_name so) (app (matchers so) [mkRule m acts])
                         (defaultActions so) (endActions so))
  | Err _ => False
  end.
Proof.
  intros H. simpl. unfold builder_state. rewrite H. simpl.
  unfold builder_on, update_current. simpl. rewrite H. simpl.
  rewrite table_of_insert, lookup_insert_eq. reflexivity.
Qed.

Definition reopen_world : World :=
  {[ 0 := {[ "text" := mkStateObj "text" [mkRule (lit "[") [emit "text"]] [accept] [] ]} ]}.

Lemma reopened_state_appends_witness :
  table_of reopen_world 0 !! "text" =
    Some (mkStateObj "text" [mkRule (lit "[") [emit "text"]] [accept] []) /\
  match builder_calls [BState "text"; BOn (lit "]") [emit "color"]] reopen_world
          (mkBuilder 0 (Some "color") (Some "text")) with
  | Ok (w', b') =>
      table_of w' (b_states b') !! "text" =
        Some (mkStateObj "text" [mkRule (lit "[") [emit "text"]; mkRule (lit "]") [emit "color"]]
                         [accept] [])
  | Err _ => False
  end.
Proof.
  split; [vm_compute; reflexivity|].
  apply (reopened_state_appends reopen_world (mkBuilder 0 (Some "color") (Some "text"))
           "text" (mkStateObj "text" [mkRule (lit "[") [emit "text"]] [accept] [])).
  vm_compute. reflexivity.
Defined.

(** A non-empty first state name stays the initial state whatever builder
    calls follow. *)
Theorem nonempty_first_state_stays_initial (w : World) (n : string) (cs : list BuilderCall) :
  n <> "" ->
  match builder_calls (BState n :: cs) (fst (stateMachineBuilder w))
                      (snd (stateMachineBuilder w)) with
  | Ok (_, b) => defaultState (build b) = Some n
  | Err _ => True
  end.
Proof.
  intros Hn. cbn [builder_calls builder_call bind fst snd].
  destruct (builder_calls cs _ _) as [[w' b']|e] eqn:E; [|exact I].
  simpl. erewrite (builder_calls_keep_default cs _ _ _ _ _ E). reflexivity.
  Unshelve.
  simpl. destruct (String.eqb_spec n "") as [->|_]; [congruence|reflexivity].
Qed.

Lemma nonempty_first_state_stays_initial_witness :
  "text" <> "" /\
  match builder_calls (BState "text" :: scenarioA) (fst (stateMachineBuilder ∅))
                      (snd (stateMachineBuilder ∅)) with
  | Ok (_, b) => defaultState (build b) = Some "text"
  | Err _ => True
  end.
Proof.
  split; [discriminate|].
  apply nonempty_first_state_stays_initial. discriminate.
Defined.

(* ------------------------------------------------------------------ *)
(** * Further properties of the streams of util.js *)

Section StreamProofs.
Context {A B OS : Type}.

(** Everything the operator emits over the values [l], then (with
    [finalize]) at its call with [undefined]. *)
Definition op_outputs (op : OS -> option A -> OS * list (option B)) (l : list A) (f : bool)
  (os : OS) : list (option B) :=
  app (snd (op_fold op os l))
      (if f then snd (op (fst (op_fold op os l)) None) else []).

(** The operator never passes [undefined] to [emit]. *)
Definition emits_defined (op : OS -> option A -> OS * list (option B)) : Prop :=
  forall (os : OS) (v : option A), Forall (fun b => b <> None) (snd (op os v)).

Lemma op_fold_defined (op : OS -> option A -> OS * list (option B)) (l : list A) :
  emits_defined op ->
  forall os : OS, Forall (fun b => b <> None) (snd (op_fold op os l)).
Proof.
  intros Hop. induction l as [|v l IH]; intros os; simpl; [constructor|].
  destruct (op os (Some v)) as [os1 out] eqn:E.
  destruct (op_fold op os1 l) as [os2 rest] eqn:F. simpl.
  apply Forall_app. split.
  - pose proof (Hop os (Some v)) as H. rewrite E in H. exact H.
  - pose proof (IH os1) as H. rewrite F in H. exact H.
Qed.

Lemma op_outputs_defined (op : OS -> option A -> OS * list (option B)) (l : list A)
  (f : bool) (os : OS) :
  emits_defined op -> Forall (fun b => b <> None) (op_outputs op l f os).
Proof.
  intros Hop. unfold op_outputs. apply Forall_app. split; [apply op_fold_defined, Hop|].
  destruct f; [apply Hop|constructor].
Qed.

Lemma op_loop_outputs (op : OS -> option A -> OS * list (option B)) (l : list A) :
  emits_defined op ->
  forall (f : bool) (os : OS),
  match op_loop op (map Some l) f os with
  | (Some b, s') =>
      exists l', src s' = map Some l' /\
        Some b :: app (obuf s') (op_outputs op l' (fin s') (ost s')) = op_outputs op l f os
  | (None, _) => op_outputs op l f os = []
  end.
Proof.
  intros Hop. induction l as [|v l IH]; intros f os.
  - unfold op_outputs. simpl. destruct f.
    + pose proof (Hop os None) as H.
      destruct (op os None) as [os' [|[b|] bs]]; simpl in *; [reflexivity| |].
      * exists []. split; [reflexivity|]. rewrite !app_nil_r. reflexivity.
      * inversion H; congruence.
    + reflexivity.
  - unfold op_outputs. simpl.
    pose proof (Hop os (Some v)) as H.
    destruct (op os (Some v)) as [os1 out] eqn:E.
    destruct (op_fold op os1 l) as [os2 rest] eqn:F. simpl in *.
    destruct out as [|[b|] bs].
    + specialize (IH f os1). unfold op_outputs in IH. rewrite F in IH. exact IH.
    + exists l. split; [reflexivity|]. simpl. unfold op_outputs. rewrite F. simpl.
      rewrite app_assoc. reflexivity.
    + inversion H; congruence.
Qed.

Lemma op_collect_outputs (op : OS -> option A -> OS * list (option B)) (fuel : nat) :
  emits_defined op ->
  forall (l : list A) (buf : list (option B)) (f : bool) (os : OS),
  Forall (fun b => b <> None) buf ->
  List.length (app buf (op_outputs op l f os)) < fuel ->
  map Some (op_collect op fuel (mkOpStream (map Some l) buf f os))
    = app buf (op_outputs op l f os).
Proof.
  intros Hop. induction fuel as [|fuel IH]; intros l buf f os Hbuf Hlen;
    [simpl in Hlen; lia|].
  destruct buf as [|b bs].
  - simpl. unfold op_next. simpl.
    pose proof (op_loop_outputs op l Hop f os) as L.
    destruct (op_loop op (map Some l) f os) as [[b|] s'].
    + destruct L as (l' & Hs & Ho). destruct s' as [src' buf' f' os']. simpl in *.
      subst src'. simpl. rewrite IH; [exact Ho| |].
      * pose proof (op_outputs_defined op l f os Hop) as D. rewrite <- Ho in D.
        inversion D as [|? ? _ D']. apply Forall_app in D'. apply D'.
      * rewrite <- Ho in Hlen. simpl in Hlen. lia.
    + rewrite L. reflexivity.
  - inversion Hbuf as [|? ? Hb Hbs]. subst.
    destruct b as [b|]; [|congruence].
    simpl. unfold op_next. simpl. rewrite IH; [reflexivity|exact Hbs|].
    simpl in Hlen. lia.
Qed.

(** [streamOperator]: when the operator never emits [undefined], the
    stream read until [undefined] returns exactly what the operator emitted,
    in order, over the input values and then, with [finalize], at its extra
    call with [undefined]. *)
Theorem streamOperator_outputs (op : OS -> option A -> OS * list (option B))
  (l : list A) (f : bool) (os : OS) (fuel : nat) :
  emits_defined op ->
  List.length (op_outputs op l f os) < fuel ->
  map Some (op_collect op fuel (mkOpStream (map Some l) [] f os)) = op_outputs op l f os.
Proof. intros Hop H. apply (op_collect_outputs op fuel Hop l [] f os); [constructor|exact H]. Qed.

(** [consumeStream] over [streamify(arr)] hands the consumer the values of
    [arr] up to, not including, the first [undefined] or falsy value. *)
Theorem consumeStream_stops_at_falsy (truthy_val : A -> bool) (arr : list (option A))
  (fuel : nat) :
  List.length arr < fuel ->
  let vs := consumeStream truthy_val fuel arr 0 in
  exists rest : list (option A),
    arr = app (map Some vs) rest /\
    Forall (fun v => truthy_val v = true) vs /\
    match rest with
    | [] => True
    | None :: _ => True
    | Some v :: _ => truthy_val v = false
    end.
Proof.
  intros Hlen.
  assert (G : forall (l pre : list (option A)) (fuel : nat),
             List.length l < fuel ->
             exists rest, l = app (map Some (consumeStream truthy_val fuel (app pre l)
                                                          (List.length pre))) rest /\
               Forall (fun v => truthy_val v = true)
                      (consumeStream truthy_val fuel (app pre l) (List.length pre)) /\
               match rest with
               | [] => True
               | None :: _ => True
               | Some v :: _ => truthy_val v = false
               end).
  { induction l as [|x l IHl]; intros pre n Hn; destruct n as [|n]; simpl in Hn; try lia.
    - simpl. rewrite app_nil_r. unfold streamify_next.
      rewrite Nat.leb_refl. exists []. repeat split; constructor.
    - simpl. unfold streamify_next.
      assert (Hle : Nat.leb (List.length (app pre (x :: l))) (List.length pre) = false).
      { apply Nat.leb_gt. rewrite length_app. simpl. lia. }
      rewrite Hle. rewrite nth_middle.
      destruct x as [v|].
      + destruct (truthy_val v) eqn:T.
        * destruct (IHl (app pre [Some v]) n ltac:(lia)) as (r & Hr & Hf & Hm).
          rewrite <- app_assoc in Hr, Hf. simpl in Hr, Hf.
          rewrite length_app in Hr, Hf. simpl in Hr, Hf.
          replace (List.length pre + 1) with (S (List.length pre)) in Hr, Hf by lia.
          exists r. split; [simpl; f_equal; exact Hr|]. split; [constructor; assumption|exact Hm].
        * exists (Some v :: l). split; [reflexivity|]. split; [constructor|exact T].
      + exists (None :: l). split; [reflexivity|]. split; [constructor|exact I]. }
  apply (G arr [] fuel Hlen).
Qed.

End StreamProofs.

(** An operator that emits each number twice and 0 at the end. *)
Definition twice_op (u : unit) (v : option nat) : unit * list (option nat) :=
  match v with Some n => (tt, [Some n; Some n]) | None => (tt, [Some 0]) end.

Lemma streamOperator_outputs_witness :
  emits_defined twice_op /\
  List.length (op_outputs twice_op [1; 2] true tt) < 10 /\
  map Some (op_collect twice_op 10 (mkOpStream (map Some [1; 2]) [] true tt))
    = [Some 1; Some 1; Some 2; Some 2; Some 0].
Proof.
  assert (H : emits_defined twice_op).
  { intros u [n|]; repeat constructor; discriminate. }
  split; [exact H|]. split; [vm_compute; lia|].
  rewrite (streamOperator_outputs twice_op [1; 2] true tt 10 H); [reflexivity|vm_compute; lia].
Defined.

Definition falsy_arr : list (option nat) := [Some 3; Some 0; Some 5].

Lemma consumeStream_stops_at_falsy_witness :
  List.length falsy_arr < 4 /\
  (let vs := consumeStream (fun n => negb (Nat.eqb n 0)) 4 falsy_arr 0 in
   exists rest : list (option nat),
     falsy_arr = app (map Some vs) rest /\
     Forall (fun v => negb (Nat.eqb v 0) = true) vs /\
     match rest with
     | [] => True
     | None :: _ => True
     | Some v :: _ => negb (Nat.eqb v 0) = false
     end).
Proof.
  split; [vm_compute; lia|].
  apply consumeStream_stops_at_falsy. vm_compute. lia.
Defined.
